(** * SAMRAI mesh::BergerRigoutsosNode: a shallow embedding

    Source: source/SAMRAI/mesh/BergerRigoutsosNode.h.

    C++ [int] values are integers of [Z], at most [INT_MAX];
    [>>] on [int] is [Z.shiftr] (arithmetic shift), [%] is the truncating
    remainder [Z.rem], and [bool(e)] of an integer expression is [e <> 0].
    [std::vector<int>] is [list Z]. *)

From Stdlib Require Import ZArith List Bool Lia QArith.
From Equations Require Import Equations.
Import ListNotations.

Local Open Scope Z_scope.

(* ===================================================================== *)
(** * Part I: definitions *)
(* ===================================================================== *)

(** ** C++ [int] *)

Module CInt.

Definition INT_MAX : Z := 2 ^ 31 - 1.
(** [bool(e)]: any non-zero integer converts to [true]. *)
Definition to_bool (v : Z) : bool := negb (v =? 0).

(** [a % b] truncates towards zero. *)
Definition rem (a b : Z) : Z := Z.rem a b.

(** [a >> k] on a signed [int]. *)
Definition shr (a k : Z) : Z := Z.shiftr a k.

End CInt.

(** ** Enumerations of the class *)

(** [enum WaitPhase], in declaration order. *)
Inductive WaitPhase : Set :=
| for_data_only
| to_be_launched
| reduce_histogram
| bcast_acceptability
| gather_grouping_criteria
| bcast_child_groups
| run_children
| bcast_to_dropouts
| completed
| deallocated.

(** The enumerators carry no initialiser, so they number from 0. *)
Definition WaitPhase_value (p : WaitPhase) : Z :=
  match p with
  | for_data_only => 0
  | to_be_launched => 1
  | reduce_histogram => 2
  | bcast_acceptability => 3
  | gather_grouping_criteria => 4
  | bcast_child_groups => 5
  | run_children => 6
  | bcast_to_dropouts => 7
  | completed => 8
  | deallocated => 9
  end.

(** [enum BoxAcceptance], with the values the header assigns. *)
Inductive BoxAcceptance : Set :=
| undetermined
| hasnotag_by_owner
| rejected_by_calculation
| accepted_by_calculation
| rejected_by_owner
| accepted_by_owner
| rejected_by_recombination
| accepted_by_recombination
| rejected_by_dropout_bcast
| accepted_by_dropout_bcast.

Definition BoxAcceptance_value (a : BoxAcceptance) : Z :=
  match a with
  | undetermined => -2
  | hasnotag_by_owner => -1
  | rejected_by_calculation => 0
  | accepted_by_calculation => 1
  | rejected_by_owner => 2
  | accepted_by_owner => 3
  | rejected_by_recombination => 4
  | accepted_by_recombination => 5
  | rejected_by_dropout_bcast => 6
  | accepted_by_dropout_bcast => 7
  end.

Definition all_BoxAcceptance : list BoxAcceptance :=
  [ undetermined; hasnotag_by_owner;
    rejected_by_calculation; accepted_by_calculation;
    rejected_by_owner; accepted_by_owner;
    rejected_by_recombination; accepted_by_recombination;
    rejected_by_dropout_bcast; accepted_by_dropout_bcast ].

(** ** Acceptance predicates

    The three inline members read [d_box_acceptance] as an [int]; they are
    given here on that integer, so that they are defined on every value the
    member can hold, and then on the enumeration. *)

(** [bool(d_box_acceptance >= 0 && d_box_acceptance % 2)] *)
Definition boxAccepted_int (v : Z) : bool :=
  (0 <=? v) && CInt.to_bool (CInt.rem v 2).

(** [bool(d_box_acceptance >= 0 && d_box_acceptance % 2 == 0)] *)
Definition boxRejected_int (v : Z) : bool :=
  (0 <=? v) && (CInt.rem v 2 =? 0).

(** [bool(d_box_acceptance == -1)] *)
Definition boxHasNoTag_int (v : Z) : bool :=
  v =? -1.

(** ** computeCommunicationTreeDegree *)

(** The loop
    [while (shifted_size > 0) { shifted_size >>= 3; ++tree_deg; }]
    with its two live variables; it returns the final [tree_deg].  The
    counter stays far below [INT_MAX] (at most 12 for an [int] argument),
    so [++tree_deg] never wraps. *)
Equations? tree_degree_loop (shifted_size tree_deg : Z) : Z
  by wf (Z.to_nat shifted_size) lt :=
  tree_degree_loop shifted_size tree_deg with Z_lt_dec 0 shifted_size => {
    | left _ => tree_degree_loop (CInt.shr shifted_size 3) (tree_deg + 1);
    | right _ => tree_deg }.
Proof.
  unfold CInt.shr. rewrite Z.shiftr_div_pow2 by lia.
  change (2 ^ 3) with 8.
  assert (shifted_size / 8 < shifted_size) by (apply Z.div_lt; lia).
  assert (0 <= shifted_size / 8) by (apply Z.div_pos; lia).
  lia.
Qed.

Definition computeCommunicationTreeDegree (group_size : Z) : Z :=
  let tree_deg := 2 in
  let shifted_size := CInt.shr group_size 3 in
  tree_degree_loop shifted_size tree_deg.

(** ** Shared parameters: the analysis counters of [CommonParams] *)

Record CommonParams : Type := mkCommonParams {
  d_num_tags_in_all_nodes : Z;
  d_max_tags_owned : Z;
  d_num_nodes_allocated : Z;
  d_max_nodes_allocated : Z;
  d_num_nodes_owned : Z;
  d_max_nodes_owned : Z;
  d_num_nodes_completed : Z;
  d_max_generation : Z;
  d_num_boxes_generated : Z;
  d_num_conts_to_complete : Z;
  d_max_conts_to_complete : Z
}.

(** ** [double] arithmetic of getAvgNumberOfCont

    A finite [double] is a rational.  Converting an [int] is exact;
    [x / y] is the exact quotient rounded to a [double] by [round], and has
    no finite value when [y] is zero, which is the failure [None]. *)

Section DoubleArithmetic.

Variable round : Q -> Q.

Definition double_of_int (v : Z) : Q := inject_Z v.

Definition double_div (x y : Q) : option Q :=
  if Qeq_bool y 0 then None else Some (round (x / y)).

(** [if (d_num_nodes_completed > 0)
       return (double)d_num_conts_to_complete / d_num_nodes_completed;
     return 0;] *)
Definition getAvgNumberOfCont (c : CommonParams) : option Q :=
  if 0 <? d_num_nodes_completed c then
    double_div (double_of_int (d_num_conts_to_complete c))
               (double_of_int (d_num_nodes_completed c))
  else Some (double_of_int 0).

End DoubleArithmetic.

(** ** The communication group of a node

    [tbox::AsyncCommGroup] is declared elsewhere; a node only calls
    [checkGather()] (which advances the group) and [isDone()]. *)

Class AsyncCommGroup (G : Type) : Type := {
  checkGather : G -> G;
  isDone : G -> bool
}.

(** ** Dendogram node: the members the modelled methods touch.

    [d_comm_group] is a pointer, [None] when null. *)

Record Node (G : Type) : Type := mkNode {
  d_pos : Z;
  d_group : list Z;
  d_mpi_tag : Z;
  d_overlap : Z;
  d_box_acceptance : BoxAcceptance;
  d_num_tags : Z;
  d_wait_phase : WaitPhase;
  d_send_msg : list Z;
  d_recv_msg : list Z;
  d_comm_group : option G;
  d_generation : Z;
  d_n_cont : Z
}.

Arguments mkNode {G}.
Arguments d_pos {G}.
Arguments d_group {G}.
Arguments d_mpi_tag {G}.
Arguments d_overlap {G}.
Arguments d_box_acceptance {G}.
Arguments d_num_tags {G}.
Arguments d_wait_phase {G}.
Arguments d_send_msg {G}.
Arguments d_recv_msg {G}.
Arguments d_comm_group {G}.
Arguments d_generation {G}.
Arguments d_n_cont {G}.

Definition set_comm_group {G} (n : Node G) (g : option G) : Node G :=
  mkNode (d_pos n) (d_group n) (d_mpi_tag n) (d_overlap n)
         (d_box_acceptance n) (d_num_tags n) (d_wait_phase n)
         (d_send_msg n) (d_recv_msg n) g (d_generation n) (d_n_cont n).

Definition boxAccepted {G} (n : Node G) : bool :=
  boxAccepted_int (BoxAcceptance_value (d_box_acceptance n)).

Definition boxRejected {G} (n : Node G) : bool :=
  boxRejected_int (BoxAcceptance_value (d_box_acceptance n)).

Definition boxHasNoTag {G} (n : Node G) : bool :=
  boxHasNoTag_int (BoxAcceptance_value (d_box_acceptance n)).

(** [gatherGroupingCriteria_check].  The result is the returned flag and
    the node afterwards; [None] is the dereference of a null
    [d_comm_group]. *)
Definition gatherGroupingCriteria_check {G} `{AsyncCommGroup G} (n : Node G)
  : option (bool * Node G) :=
  if Nat.eqb (length (d_group n)) 1 then Some (true, n)
  else
    match d_comm_group n with
    | None => None
    | Some g =>
        let g' := checkGather g in
        Some (isDone g', set_comm_group n (Some g'))
    end.

(** ** Node construction and position in the dendogram *)

(** Modelled from the spec: the constructors of [BergerRigoutsosNode]
    (their bodies are in BergerRigoutsosNode.C, which is not among the
    sources).  The position follows the header's documentation of [d_pos]:
    the root has position 1, the left child [2 * d_pos], the right child
    [2 * d_pos + 1], and a position too big for an [int] is -1 for a left
    child and -2 for a right child.  [child_number] is 0 for the left child
    and 1 for the right child.  A parent whose own position is already
    unrepresentable (negative) has unrepresentable children. *)
Definition child_pos (parent_pos child_number : Z) : Z :=
  let pos := 2 * parent_pos + child_number in
  if (0 <? parent_pos) && (pos <=? CInt.INT_MAX) then pos
  else if child_number =? 0 then -1 else -2.

(** Modelled from the spec: the root constructor (not among the sources).
    Position 1 and generation 1 are the header's; the root is created to be
    run, so it waits in [to_be_launched]. *)
Definition newRoot {G} (group : list Z) : Node G :=
  mkNode 1 group (-1) 0 undetermined 0 to_be_launched [] [] None 1 0.

(** Modelled from the spec: the private constructor of a non-root node (not
    among the sources).  The header says such a node still needs setting up
    and names its phase: [for_data_only] until the node is to be executed.
    The generation is the parent's plus one. *)
Definition newChild {G} (parent : Node G) (child_number : Z) : Node G :=
  mkNode (child_pos (d_pos parent) child_number) [] (-1) 0 undetermined 0
         for_data_only [] [] None (d_generation parent + 1) 0.

(** ** The wait phases of a running node *)

(** The eight phases the specification lists, in its order. *)
Definition running_phases : list WaitPhase :=
  [ to_be_launched; reduce_histogram; bcast_acceptability;
    gather_grouping_criteria; bcast_child_groups; run_children;
    bcast_to_dropouts; completed ].

Definition all_WaitPhase : list WaitPhase :=
  for_data_only :: running_phases ++ [deallocated].

(** Phases in which a call may find its operation incomplete and return
    with the phase unchanged. *)
Definition awaits_operation (p : WaitPhase) : bool :=
  match p with
  | reduce_histogram | bcast_acceptability | gather_grouping_criteria
  | bcast_child_groups | run_children | bcast_to_dropouts => true
  | _ => false
  end.

(** Modelled from the spec: the phase transitions of [continueAlgorithm]
    (its body is in BergerRigoutsosNode.C, not among the sources), one entry
    per transition of the specification's state machine:
    launch; reduction complete (root without tags completes at once);
    acceptability known (accepted: completed; rejected: gather; or on to the
    dropout broadcast); criteria gathered; child groups known (members run
    the children, the others go to the dropout broadcast); children done;
    dropouts informed. *)
Definition phase_successors (p : WaitPhase) : list WaitPhase :=
  match p with
  | to_be_launched => [reduce_histogram]
  | reduce_histogram => [bcast_acceptability; completed]
  | bcast_acceptability => [gather_grouping_criteria; bcast_to_dropouts; completed]
  | gather_grouping_criteria => [bcast_child_groups]
  | bcast_child_groups => [run_children; bcast_to_dropouts]
  | run_children => [bcast_to_dropouts]
  | bcast_to_dropouts => [completed]
  | for_data_only | completed | deallocated => []
  end.

(** Modelled from the spec: what one call of [continueAlgorithm] returns
    (body not among the sources).  A call resumes at the node's phase and
    works until an operation is incomplete: it returns the phase unchanged
    when the pending operation is not complete, and otherwise the phase
    reached after one or more transitions (in serial, the header notes, a
    single call completes the algorithm). *)
Inductive continueAlgorithm_returns : WaitPhase -> WaitPhase -> Prop :=
| returns_waiting (p : WaitPhase) :
    awaits_operation p = true -> continueAlgorithm_returns p p
| returns_after_step (p q : WaitPhase) :
    In q (phase_successors p) -> continueAlgorithm_returns p q
| returns_after_more (p q r : WaitPhase) :
    In q (phase_successors p) ->
    continueAlgorithm_returns q r ->
    continueAlgorithm_returns p r.

(** One call on a node: the phase moves as above, the call is counted in
    [d_n_cont], and the [const] members keep their values. *)
Definition continueAlgorithm_call {G} (n n' : Node G) : Prop :=
  continueAlgorithm_returns (d_wait_phase n) (d_wait_phase n') /\
  d_n_cont n' = d_n_cont n + 1 /\
  d_pos n' = d_pos n /\
  d_generation n' = d_generation n.

(** Any number of successive calls. *)
Inductive successive_calls {G} : Node G -> Node G -> Prop :=
| calls_none (n : Node G) : successive_calls n n
| calls_more (n n' n'' : Node G) :
    continueAlgorithm_call n n' ->
    successive_calls n' n'' ->
    successive_calls n n''.

(** ** The grouping-criteria gather *)

(** What one rank contributes: its overlap with the left and the right
    child box, its rank, and its node count. *)
Record GroupingCriteria : Type := mkGroupingCriteria {
  overlap_left : Z;
  overlap_right : Z;
  criteria_rank : Z;
  node_count : Z
}.

(** Modelled from the spec: the message a rank sends in
    [gatherGroupingCriteria_start] (body not among the sources), the four
    integers [overlap_L, overlap_R, rank, node_count]. *)
Definition packGroupingCriteria (c : GroupingCriteria) : list Z :=
  [overlap_left c; overlap_right c; criteria_rank c; node_count c].

(** Modelled from the spec: the gather of [tbox::AsyncCommGroup] (not among
    the sources): the root receives the contributions of the ranks laid end
    to end, in group order. *)
Definition gatherToOwner (contributions : list (list Z)) : list Z :=
  concat contributions.

(** Modelled from the spec: the completed gather of the grouping criteria,
    as the owner's receive buffer.  [local] gives each rank's overlaps and
    node count. *)
Definition gatheredGroupingCriteria
  (group : list Z) (local : Z -> GroupingCriteria) : list Z :=
  gatherToOwner
    (map (fun r =>
            packGroupingCriteria
              (mkGroupingCriteria (overlap_left (local r)) (overlap_right (local r))
                                  r (node_count (local r))))
         group).

Definition set_recv_msg {G} (n : Node G) (msg : list Z) : Node G :=
  mkNode (d_pos n) (d_group n) (d_mpi_tag n) (d_overlap n)
         (d_box_acceptance n) (d_num_tags n) (d_wait_phase n)
         (d_send_msg n) msg (d_comm_group n) (d_generation n) (d_n_cont n).

(** The owner's node once the gather has completed. *)
Definition gatherGroupingCriteria_done {G}
  (n : Node G) (local : Z -> GroupingCriteria) : Node G :=
  set_recv_msg n (gatheredGroupingCriteria (d_group n) local).

(** Modelled from the spec: how [formChildGroups] (body not among the
    sources) reads the criteria of the [i]-th rank of the group back from
    the receive buffer; [None] when the buffer is too short. *)
Definition unpackGroupingCriteria (buffer : list Z) (i : nat)
  : option GroupingCriteria :=
  match skipn (4 * i) buffer with
  | ol :: or :: r :: nc :: _ => Some (mkGroupingCriteria ol or r nc)
  | _ => None
  end.

(** ** Sample states used by the examples below *)

(** Counters after four completed nodes that took ten calls in all. *)
Definition counters_after_four_nodes : CommonParams :=
  mkCommonParams 12 5 7 7 2 3 4 3 3 10 4.

(** A communication group that is done after two checks. *)
Definition two_step_group : AsyncCommGroup nat :=
  {| checkGather := S; isDone := fun k => Nat.leb 2 k |}.

(** A rejected node whose group is the single rank 0. *)
Definition single_rank_node : Node nat :=
  mkNode 1 [0] 0 16 rejected_by_owner 3 gather_grouping_criteria
         [16; 0; 0; 1] [] None 1 1.

(** A root over four ranks, before and after its first call. *)
Definition launched_root : Node unit := newRoot [0; 1; 2; 3].

Definition waiting_root : Node unit :=
  mkNode 1 [0; 1; 2; 3] (-1) 0 undetermined 0 reduce_histogram [] [] None 1 1.

(** ** Further inline members of the header *)

(** *** Counters of nodes waiting on communication

    The two members of [CommonParams] that [incNumNodesCommWait] and
    [decNumNodesCommWait] touch. *)

Record CommWaitCounters : Type := mkCommWaitCounters {
  d_num_nodes_commwait : Z;
  d_max_nodes_commwait : Z
}.

Definition INT_MIN : Z := - 2 ^ 31.

Section CommWait.

(** [tbox::MathUtilities<int>::Max] is declared elsewhere; the theorems
    assume of it only that it returns the larger of its two arguments. *)
Variable Max : Z -> Z -> Z.

(** [++d_num_nodes_commwait;
     d_max_nodes_commwait = Max(d_num_nodes_commwait, d_max_nodes_commwait);]
    Incrementing an [int] that holds [INT_MAX] is undefined: [None]. *)
Definition incNumNodesCommWait (c : CommWaitCounters) : option CommWaitCounters :=
  if d_num_nodes_commwait c <? CInt.INT_MAX then
    let num := d_num_nodes_commwait c + 1 in
    Some (mkCommWaitCounters num (Max num (d_max_nodes_commwait c)))
  else None.

(** [--d_num_nodes_commwait;]  Decrementing [INT_MIN] is undefined. *)
Definition decNumNodesCommWait (c : CommWaitCounters) : option CommWaitCounters :=
  if INT_MIN <? d_num_nodes_commwait c then
    Some (mkCommWaitCounters (d_num_nodes_commwait c - 1) (d_max_nodes_commwait c))
  else None.

(** A history of the two calls, applied in order from the head. *)
Inductive CommWaitCall : Set :=
| IncWait
| DecWait.

Definition commWaitCall (call : CommWaitCall) (c : CommWaitCounters)
  : option CommWaitCounters :=
  match call with
  | IncWait => incNumNodesCommWait c
  | DecWait => decNumNodesCommWait c
  end.

Fixpoint commWaitCalls (calls : list CommWaitCall) (c : CommWaitCounters)
  : option CommWaitCounters :=
  match calls with
  | [] => Some c
  | call :: rest =>
      match commWaitCall call c with
      | Some c' => commWaitCalls rest c'
      | None => None
      end
  end.

End CommWait.

(** The values [d_num_nodes_commwait] takes along a history, the starting
    value first, computed without regard to the [int] range. *)
Fixpoint commWaitTrace (calls : list CommWaitCall) (num : Z) : list Z :=
  num ::
  match calls with
  | [] => []
  | IncWait :: rest => commWaitTrace rest (num + 1)
  | DecWait :: rest => commWaitTrace rest (num - 1)
  end.

(** The highest value along a history. *)
Definition commWaitPeak (calls : list CommWaitCall) (num : Z) : Z :=
  fold_right Z.max num (commWaitTrace calls num).

(** *** findOwnerInGroup and inGroup *)

(** Conversion of an [unsigned int] to [int] (the [return i;] of
    [findOwnerInGroup]): values above [INT_MAX] wrap. *)
Definition int_of_unsigned (u : Z) : Z :=
  if u <=? CInt.INT_MAX then u else u - 2 ^ 32.

(** [for (unsigned int i = 0; i < group.size(); ++i)
       if (group[i] == owner) return i;
     return -1;]
    The loop is given from index [i] on, over the elements not yet seen. *)
Fixpoint findOwnerInGroup_from (i : Z) (owner : Z) (group : list Z) : Z :=
  match group with
  | [] => -1
  | r :: rest =>
      if r =? owner then int_of_unsigned i
      else findOwnerInGroup_from (i + 1) owner rest
  end.

Definition findOwnerInGroup (owner : Z) (group : list Z) : Z :=
  findOwnerInGroup_from 0 owner group.

(** The loop of [inGroup]:
    [for (size_t i = 0; i < group.size(); ++i)
       if (rank == group[i]) return true;
     return false;] *)
Fixpoint inGroup_scan (rank : Z) (group : list Z) : bool :=
  match group with
  | [] => false
  | r :: rest => if rank =? r then true else inGroup_scan rank rest
  end.

(** [inGroup(group, rank)].  [local_rank] is what
    [d_common->d_mpi_object.getRank()] returns; a negative [rank] (the
    default argument is -1) is replaced by it. *)
Definition inGroup (local_rank : Z) (group : list Z) (rank : Z) : bool :=
  let rank := if rank <? 0 then local_rank else rank in
  inGroup_scan rank group.

(** *** inRelaunchQueue *)

(** [std::find(first, last, value)] on a list: the position of the first
    element equal to [value], counted from [begin()]; the length of the list
    stands for [end()]. *)
Fixpoint std_find (value : Z) (l : list Z) : nat :=
  match l with
  | [] => 0%nat
  | x :: rest => if x =? value then 0%nat else S (std_find value rest)
  end.

(** [inRelaunchQueue(node_ptr)]: the relaunch queue holds node pointers,
    here addresses. *)
Definition inRelaunchQueue (d_relaunch_queue : list Z) (node_ptr : Z) : nat :=
  std_find node_ptr d_relaunch_queue.

(** *** getHistogramBufferSize *)

(** The loop [for (int d = 1; d < dim_val; ++d) size += box.numberCells(d);]
    with [count] iterations left. *)
Fixpoint histogram_size_loop
  (numberCells : Z -> Z) (count : nat) (d : Z) (size : Z) : Z :=
  match count with
  | O => size
  | S count' =>
      histogram_size_loop numberCells count' (d + 1) (size + numberCells d)
  end.

(** [getHistogramBufferSize(box)].  [hier::Box] is declared elsewhere; the
    function only reads [box.numberCells(d)], given here as [numberCells],
    and the dimension [d_common->getDim().getValue()]. *)
Definition getHistogramBufferSize (numberCells : Z -> Z) (dim_val : Z) : Z :=
  let size := numberCells 0 in
  histogram_size_loop numberCells (Z.to_nat (dim_val - 1)) 1 size.


(** *** More sample states *)


(* ===================================================================== *)
(** * Part II: theorems *)
(* ===================================================================== *)

Example tree_degree_samples :
  map computeCommunicationTreeDegree [1; 2; 7; 8; 63; 64; 511; 512; 2147483647]
  = [2; 2; 2; 3; 3; 4; 4; 5; 12].
Proof. reflexivity. Qed.

(** ** Acceptance state *)

(** The ten enumerators, classified by the three predicates. *)
Example box_acceptance_table :
  map (fun a => let v := BoxAcceptance_value a in
                (v, boxAccepted_int v, boxRejected_int v, boxHasNoTag_int v))
      all_BoxAcceptance
  = [ (-2, false, false, false); (-1, false, false, true);
      (0, false, true, false); (1, true, false, false);
      (2, false, true, false); (3, true, false, false);
      (4, false, true, false); (5, true, false, false);
      (6, false, true, false); (7, true, false, false) ].
Proof. reflexivity. Qed.

Lemma rem2_nonneg (v : Z) : 0 <= v -> CInt.rem v 2 = if Z.odd v then 1 else 0.
Proof.
  intros Hv. unfold CInt.rem.
  rewrite Z.rem_mod_nonneg by lia. apply Zmod_odd.
Qed.

(** C3: on every value [v] of the acceptance state, [boxAccepted()] holds
    iff [v >= 0] and [v] is odd, [boxRejected()] holds iff [v >= 0] and [v]
    is even, [boxHasNoTag()] holds iff [v = -1]; no two of the three hold
    together.  The second part says the same of every node through its
    [d_box_acceptance]. *)
Theorem box_acceptance_parity_encoding :
  (forall v : Z,
      (boxAccepted_int v = true <-> (0 <= v /\ Z.odd v = true)) /\
      (boxRejected_int v = true <-> (0 <= v /\ Z.even v = true)) /\
      (boxHasNoTag_int v = true <-> v = -1) /\
      boxAccepted_int v && boxRejected_int v = false /\
      boxAccepted_int v && boxHasNoTag_int v = false /\
      boxRejected_int v && boxHasNoTag_int v = false) /\
  (forall (G : Type) (n : Node G),
      let v := BoxAcceptance_value (d_box_acceptance n) in
      (boxAccepted n = true <-> (0 <= v /\ Z.odd v = true)) /\
      (boxRejected n = true <-> (0 <= v /\ Z.even v = true)) /\
      (boxHasNoTag n = true <-> v = -1) /\
      boxAccepted n && boxRejected n = false /\
      boxAccepted n && boxHasNoTag n = false /\
      boxRejected n && boxHasNoTag n = false).
Proof.
  assert (Hint : forall v : Z,
      (boxAccepted_int v = true <-> (0 <= v /\ Z.odd v = true)) /\
      (boxRejected_int v = true <-> (0 <= v /\ Z.even v = true)) /\
      (boxHasNoTag_int v = true <-> v = -1) /\
      boxAccepted_int v && boxRejected_int v = false /\
      boxAccepted_int v && boxHasNoTag_int v = false /\
      boxRejected_int v && boxHasNoTag_int v = false).
  { intros v. unfold boxAccepted_int, boxRejected_int, boxHasNoTag_int, CInt.to_bool.
    destruct (Z.leb_spec 0 v) as [Hv | Hv].
    - rewrite (rem2_nonneg v Hv), <- Z.negb_odd.
      assert (Hm1 : (v =? -1) = false) by (apply Z.eqb_neq; lia).
      rewrite Hm1.
      destruct (Z.odd v); cbn; repeat split; intros; try tauto; try lia;
        try discriminate; intuition (try discriminate; try lia).
    - cbn. repeat split; intros; try discriminate; try lia;
        try (apply Z.eqb_eq; assumption); try (apply Z.eqb_eq in H; assumption);
        intuition lia. }
  split; [exact Hint |].
  intros G n v. unfold boxAccepted, boxRejected, boxHasNoTag. apply Hint.
Qed.

(** ** Communication tree degree *)

Lemma tree_degree_loop_stop (s t : Z) : s <= 0 -> tree_degree_loop s t = t.
Proof.
  intros Hs. rewrite tree_degree_loop_equation_1.
  destruct (Z_lt_dec 0 s); [lia | reflexivity].
Qed.

Lemma tree_degree_loop_step (s t : Z) :
  0 < s -> tree_degree_loop s t = tree_degree_loop (s / 8) (t + 1).
Proof.
  intros Hs. rewrite tree_degree_loop_equation_1.
  destruct (Z_lt_dec 0 s); [| lia].
  unfold tree_degree_loop_unfold_clause_1, CInt.shr.
  rewrite Z.shiftr_div_pow2 by lia. reflexivity.
Qed.

Lemma tree_degree_loop_pow8 (k : nat) : forall s t : Z,
  8 ^ Z.of_nat k <= s < 8 ^ (Z.of_nat k + 1) ->
  tree_degree_loop s t = t + Z.of_nat k + 1.
Proof.
  induction k as [| k IH]; intros s t Hs.
  - change (8 ^ Z.of_nat 0) with 1 in Hs. change (8 ^ (Z.of_nat 0 + 1)) with 8 in Hs.
    rewrite tree_degree_loop_step by lia.
    rewrite Z.div_small by lia.
    rewrite tree_degree_loop_stop by lia. cbn. lia.
  - rewrite Nat2Z.inj_succ in Hs |- *.
    assert (Hp : 0 < 8 ^ Z.of_nat k) by (apply Z.pow_pos_nonneg; lia).
    assert (E1 : 8 ^ Z.succ (Z.of_nat k) = 8 * 8 ^ Z.of_nat k)
      by (apply Z.pow_succ_r; lia).
    assert (E2 : 8 ^ (Z.succ (Z.of_nat k) + 1) = 64 * 8 ^ Z.of_nat k).
    { replace (Z.succ (Z.of_nat k) + 1) with (Z.of_nat k + 2) by lia.
      rewrite Z.pow_add_r by lia. change (8 ^ 2) with 64. lia. }
    assert (E3 : 8 ^ (Z.of_nat k + 1) = 8 * 8 ^ Z.of_nat k).
    { rewrite Z.pow_add_r by lia. change (8 ^ 1) with 8. lia. }
    rewrite E1, E2 in Hs.
    rewrite tree_degree_loop_step by lia.
    rewrite IH.
    + lia.
    + rewrite E3. split.
      * apply Z.div_le_lower_bound; lia.
      * apply Z.div_lt_upper_bound; lia.
Qed.

Lemma pow8_bracket (n : Z) :
  1 <= n ->
  0 <= Z.log2 n / 3 /\
  8 ^ (Z.log2 n / 3) <= n < 8 ^ (Z.log2 n / 3 + 1).
Proof.
  intros Hn.
  pose proof (Z.log2_nonneg n) as HL.
  destruct (Z.log2_spec n ltac:(lia)) as [Hlo Hhi].
  set (L := Z.log2 n) in *.
  assert (Hk : 0 <= L / 3) by (apply Z.div_pos; lia).
  pose proof (Z.mul_div_le L 3 ltac:(lia)) as Hdl.
  pose proof (Z.mul_succ_div_gt L 3 ltac:(lia)) as Hdu.
  assert (E8 : forall k, 0 <= k -> 8 ^ k = 2 ^ (3 * k)).
  { intros k Hk0. rewrite Z.pow_mul_r by lia. reflexivity. }
  split; [exact Hk |].
  rewrite !E8 by lia. split.
  - apply Z.le_trans with (2 ^ L); [| exact Hlo].
    apply Z.pow_le_mono_r; lia.
  - apply Z.lt_le_trans with (2 ^ Z.succ L); [exact Hhi |].
    apply Z.pow_le_mono_r; lia.
Qed.

Lemma tree_degree_pow8 (k : nat) (n : Z) :
  8 ^ Z.of_nat k <= n < 8 ^ (Z.of_nat k + 1) ->
  computeCommunicationTreeDegree n = 2 + Z.of_nat k.
Proof.
  intros Hn. unfold computeCommunicationTreeDegree, CInt.shr. cbv zeta.
  assert (Hp : 0 < 8 ^ Z.of_nat k) by (apply Z.pow_pos_nonneg; lia).
  rewrite Z.shiftr_div_pow2 by lia. change (2 ^ 3) with 8.
  destruct k as [| k].
  - change (8 ^ Z.of_nat 0) with 1 in Hn. change (8 ^ (Z.of_nat 0 + 1)) with 8 in Hn.
    rewrite Z.div_small by lia. rewrite tree_degree_loop_stop by lia. reflexivity.
  - rewrite Nat2Z.inj_succ in Hn |- *.
    assert (Hq : 0 < 8 ^ Z.of_nat k) by (apply Z.pow_pos_nonneg; lia).
    assert (E1 : 8 ^ Z.succ (Z.of_nat k) = 8 * 8 ^ Z.of_nat k)
      by (apply Z.pow_succ_r; lia).
    assert (E2 : 8 ^ (Z.succ (Z.of_nat k) + 1) = 64 * 8 ^ Z.of_nat k).
    { replace (Z.succ (Z.of_nat k) + 1) with (Z.of_nat k + 2) by lia.
      rewrite Z.pow_add_r by lia. change (8 ^ 2) with 64. lia. }
    assert (E3 : 8 ^ (Z.of_nat k + 1) = 8 * 8 ^ Z.of_nat k).
    { rewrite Z.pow_add_r by lia. change (8 ^ 1) with 8. lia. }
    rewrite E1, E2 in Hn.
    rewrite (tree_degree_loop_pow8 k).
    + lia.
    + rewrite E3. split.
      * apply Z.div_le_lower_bound; lia.
      * apply Z.div_lt_upper_bound; lia.
Qed.

Lemma tree_degree_closed_form (n : Z) :
  1 <= n -> computeCommunicationTreeDegree n = 2 + Z.log2 n / 3.
Proof.
  intros Hn. destruct (pow8_bracket n Hn) as [Hk Hb].
  rewrite <- (Z2Nat.id (Z.log2 n / 3)) in Hb by exact Hk.
  rewrite (tree_degree_pow8 _ n Hb). rewrite Z2Nat.id by exact Hk. reflexivity.
Qed.

(** C4 (as the code has it): the degree is 2 for group sizes 1 to 7 and
    grows by one each time the group size is multiplied by eight (three
    doublings); in closed form it is [2 + floor(log2 n / 3)].  For an [int]
    group size it never exceeds 12. *)
Theorem tree_degree_per_factor_of_eight (n : Z) :
  1 <= n ->
  (n < 8 -> computeCommunicationTreeDegree n = 2) /\
  computeCommunicationTreeDegree (8 * n) = computeCommunicationTreeDegree n + 1 /\
  computeCommunicationTreeDegree n = 2 + Z.log2 n / 3 /\
  (n <= CInt.INT_MAX -> 2 <= computeCommunicationTreeDegree n <= 12).
Proof.
  intros Hn.
  assert (Hclosed := tree_degree_closed_form n Hn).
  destruct (pow8_bracket n Hn) as [Hk Hb].
  split; [| split; [| split]].
  - intros Hlt. apply (tree_degree_pow8 0 n). cbn. lia.
  - rewrite Hclosed.
    set (k := Z.log2 n / 3) in *.
    assert (Hp : 0 < 8 ^ k) by (apply Z.pow_pos_nonneg; lia).
    assert (E1 : 8 ^ (k + 1) = 8 * 8 ^ k).
    { rewrite Z.pow_add_r by lia. change (8 ^ 1) with 8. lia. }
    assert (E2 : 8 ^ (k + 1 + 1) = 64 * 8 ^ k).
    { replace (k + 1 + 1) with (k + 2) by lia.
      rewrite Z.pow_add_r by lia. change (8 ^ 2) with 64. lia. }
    rewrite (tree_degree_pow8 (Z.to_nat (k + 1)) (8 * n)).
    + rewrite Z2Nat.id by lia. lia.
    + rewrite Z2Nat.id by lia. rewrite E1, E2. lia.
  - exact Hclosed.
  - intros Hmax. rewrite Hclosed.
    assert (Hlog : Z.log2 n <= 30).
    { assert (Z.log2 n < 31); [| lia].
      apply Z.log2_lt_pow2; [lia |]. unfold CInt.INT_MAX in Hmax. lia. }
    pose proof (Z.log2_nonneg n).
    assert (Z.log2 n / 3 <= 10) by (apply Z.div_le_upper_bound; lia).
    lia.
Qed.

Lemma tree_degree_per_factor_of_eight_witness :
  1 <= 100 /\
  ((100 < 8 -> computeCommunicationTreeDegree 100 = 2) /\
   computeCommunicationTreeDegree (8 * 100) = computeCommunicationTreeDegree 100 + 1 /\
   computeCommunicationTreeDegree 100 = 2 + Z.log2 100 / 3 /\
   (100 <= CInt.INT_MAX -> 2 <= computeCommunicationTreeDegree 100 <= 12)).
Proof.
  split; [lia | apply (tree_degree_per_factor_of_eight 100); lia].
Defined.

(** C4 (as the claim words it, refuted): the degree does not grow by one
    per doubling of the group size.  Group sizes 1 and 2 both get degree 2. *)
Lemma tree_degree_not_per_doubling :
  computeCommunicationTreeDegree 1 = 2 /\
  computeCommunicationTreeDegree (2 * 1) = 2 /\
  ~ (forall n : Z, 1 <= n ->
       computeCommunicationTreeDegree (2 * n) = computeCommunicationTreeDegree n + 1).
Proof.
  split; [reflexivity | split; [reflexivity |]].
  intros Hall. specialize (Hall 1 ltac:(lia)).
  rewrite (tree_degree_pow8 0 (2 * 1)) in Hall by (cbn; lia).
  rewrite (tree_degree_pow8 0 1) in Hall by (cbn; lia).
  discriminate Hall.
Qed.

(** ** Average number of continuations *)

Lemma double_div_nonzero (round : Q -> Q) (a b : Z) :
  b <> 0 ->
  double_div round (double_of_int a) (double_of_int b)
  = Some (round (inject_Z a / inject_Z b)%Q).
Proof.
  intros Hb. unfold double_div, double_of_int.
  destruct (Qeq_bool (inject_Z b) 0) eqn:E; [| reflexivity].
  apply Qeq_bool_eq in E. unfold Qeq in E. cbn in E. lia.
Qed.

(** C9: [getAvgNumberOfCont()] never divides by zero (it always has a
    value); with no completed node it returns 0, and otherwise the
    continuation count divided by the number of completed nodes (as a
    [double] quotient). *)
Theorem getAvgNumberOfCont_safe (round : Q -> Q) (c : CommonParams) :
  0 <= d_num_nodes_completed c ->
  getAvgNumberOfCont round c <> None /\
  (d_num_nodes_completed c = 0 -> getAvgNumberOfCont round c = Some 0%Q) /\
  (d_num_nodes_completed c <> 0 ->
   getAvgNumberOfCont round c
   = Some (round (inject_Z (d_num_conts_to_complete c)
                  / inject_Z (d_num_nodes_completed c))%Q)).
Proof.
  intros Hnonneg. unfold getAvgNumberOfCont.
  destruct (Z.ltb_spec 0 (d_num_nodes_completed c)) as [Hpos | Hzero].
  - rewrite double_div_nonzero by lia.
    split; [discriminate | split; [lia | reflexivity]].
  - split; [discriminate | split; [reflexivity | lia]].
Qed.

Lemma getAvgNumberOfCont_safe_witness :
  0 <= d_num_nodes_completed counters_after_four_nodes /\
  getAvgNumberOfCont (fun q => q) counters_after_four_nodes
  = Some (inject_Z 10 / inject_Z 4)%Q.
Proof.
  split; [cbn; lia |].
  apply (getAvgNumberOfCont_safe (fun q => q) counters_after_four_nodes);
    cbn; lia.
Defined.

(** ** Gather of the grouping criteria *)

(** C10: when the group of a node holds exactly one rank,
    [gatherGroupingCriteria_check()] returns true at once and leaves the
    node, its communication group included, as it was: the group is not
    advanced (it is not even dereferenced). *)
Theorem gatherGroupingCriteria_check_single_rank
  (G : Type) (ops : AsyncCommGroup G) (n : Node G) :
  length (d_group n) = 1%nat ->
  gatherGroupingCriteria_check n = Some (true, n).
Proof.
  intros Hsize. unfold gatherGroupingCriteria_check.
  rewrite Hsize. reflexivity.
Qed.

(** Several ranks: the check advances the group and reports its state. *)
Lemma gatherGroupingCriteria_check_many_ranks
  (G : Type) (ops : AsyncCommGroup G) (n : Node G) (g : G) :
  length (d_group n) <> 1%nat ->
  d_comm_group n = Some g ->
  gatherGroupingCriteria_check n
  = Some (isDone (checkGather g), set_comm_group n (Some (checkGather g))).
Proof.
  intros Hsize Hg. unfold gatherGroupingCriteria_check.
  apply Nat.eqb_neq in Hsize. rewrite Hsize, Hg. reflexivity.
Qed.

Lemma gatherGroupingCriteria_check_single_rank_witness :
  length (d_group single_rank_node) = 1%nat /\
  @gatherGroupingCriteria_check nat two_step_group single_rank_node
  = Some (true, single_rank_node).
Proof.
  split; [reflexivity |].
  apply (gatherGroupingCriteria_check_single_rank nat two_step_group single_rank_node).
  reflexivity.
Defined.

(** ** Position in the dendogram *)

Lemma child_pos_fits (p c : Z) :
  0 < p -> 2 * p + c <= CInt.INT_MAX -> child_pos p c = 2 * p + c.
Proof.
  intros Hp Hfit. unfold child_pos. cbv zeta.
  destruct (Z.ltb_spec 0 p); [| lia].
  destruct (Z.leb_spec (2 * p + c) CInt.INT_MAX); [reflexivity | lia].
Qed.

Lemma child_pos_too_big (p c : Z) :
  CInt.INT_MAX < 2 * p + c ->
  child_pos p c = if c =? 0 then -1 else -2.
Proof.
  intros Hbig. unfold child_pos. cbv zeta.
  destruct (Z.leb_spec (2 * p + c) CInt.INT_MAX); [lia |].
  rewrite andb_false_r. reflexivity.
Qed.

(** C8 (as the code documents it): the root is at position 1; a node at
    position [p >= 1] has its left child at [2 * p] and its right child at
    [2 * p + 1] as long as these fit an [int]; when they do not, the left
    child gets -1 and the right child gets -2.  One of the two cases always
    applies. *)
Theorem child_position_index (p : Z) :
  1 <= p ->
  d_pos (@newRoot unit []) = 1 /\
  (2 * p + 1 <= CInt.INT_MAX ->
   child_pos p 0 = 2 * p /\ child_pos p 1 = 2 * p + 1) /\
  (CInt.INT_MAX < 2 * p ->
   child_pos p 0 = -1 /\ child_pos p 1 = -2) /\
  (2 * p + 1 <= CInt.INT_MAX \/ CInt.INT_MAX < 2 * p) /\
  (forall (G : Type) (parent : Node G) (c : Z),
      d_pos (newChild parent c) = child_pos (d_pos parent) c).
Proof.
  intros Hp. split; [reflexivity |]. split; [| split; [| split]].
  - intros Hfit. split.
    + rewrite child_pos_fits by lia. lia.
    + rewrite child_pos_fits by lia. reflexivity.
  - intros Hbig. split; rewrite child_pos_too_big by lia; reflexivity.
  - unfold CInt.INT_MAX. lia.
  - reflexivity.
Qed.

Lemma child_position_index_witness :
  1 <= 5 /\ child_pos 5 0 = 10 /\ child_pos 5 1 = 11.
Proof.
  split; [lia |].
  destruct (child_position_index 5 ltac:(lia)) as (_ & Hfit & _).
  apply Hfit. unfold CInt.INT_MAX. lia.
Defined.

(** C8 (as the claim words it, refuted): at parent position [2^30] both
    child positions overflow an [int], and the children get -1 and -2;
    neither is plus or minus a large value. *)
Lemma child_position_not_saturated :
  CInt.INT_MAX < 2 * 2 ^ 30 /\
  child_pos (2 ^ 30) 0 = -1 /\
  child_pos (2 ^ 30) 1 = -2 /\
  ~ (exists big : Z, 2 < big /\
       (child_pos (2 ^ 30) 0 = big \/ child_pos (2 ^ 30) 0 = - big)) /\
  ~ (exists big : Z, 2 < big /\
       (child_pos (2 ^ 30) 1 = big \/ child_pos (2 ^ 30) 1 = - big)).
Proof.
  assert (H0 : child_pos (2 ^ 30) 0 = -1) by reflexivity.
  assert (H1 : child_pos (2 ^ 30) 1 = -2) by reflexivity.
  split; [unfold CInt.INT_MAX; lia |].
  split; [exact H0 | split; [exact H1 | split]].
  - rewrite H0. intros (big & Hbig & [E | E]); lia.
  - rewrite H1. intros (big & Hbig & [E | E]); lia.
Qed.

(** ** Wait phases *)

Lemma phase_successor_forward (p q : WaitPhase) :
  In q (phase_successors p) ->
  In p running_phases /\ In q running_phases /\
  WaitPhase_value p < WaitPhase_value q.
Proof.
  destruct p; cbn; intros Hq; try contradiction;
    repeat (destruct Hq as [Hq | Hq]; [subst q; cbn; intuition lia |]);
    contradiction.
Qed.

Lemma continueAlgorithm_returns_forward (p q : WaitPhase) :
  continueAlgorithm_returns p q ->
  In p running_phases /\ In q running_phases /\
  WaitPhase_value p <= WaitPhase_value q.
Proof.
  induction 1 as [p Hw | p q Hq | p q r Hq _ IH].
  - destruct p; cbn in Hw; try discriminate; cbn; intuition lia.
  - destruct (phase_successor_forward p q Hq) as (Hp & Hq' & Hlt).
    intuition lia.
  - destruct (phase_successor_forward p q Hq) as (Hp & _ & Hlt).
    destruct IH as (_ & Hr & Hle). intuition lia.
Qed.

Lemma successive_calls_forward {G} (n n' : Node G) :
  successive_calls n n' ->
  In (d_wait_phase n) running_phases ->
  In (d_wait_phase n') running_phases /\
  WaitPhase_value (d_wait_phase n) <= WaitPhase_value (d_wait_phase n') /\
  d_n_cont n <= d_n_cont n'.
Proof.
  induction 1 as [n | n n' n'' Hcall _ IH]; intros Hin.
  - split; [exact Hin | lia].
  - destruct Hcall as (Hret & Hcont & _).
    destruct (continueAlgorithm_returns_forward _ _ Hret) as (_ & Hin' & Hle).
    destruct (IH Hin') as (Hin'' & Hle' & Hc). split; [exact Hin'' | lia].
Qed.

(** The whole sequence can be run through: every one of the eight phases is
    returned by some call of a run from launch to completion. *)
Lemma running_phases_all_visited :
  continueAlgorithm_returns to_be_launched reduce_histogram /\
  continueAlgorithm_returns reduce_histogram reduce_histogram /\
  continueAlgorithm_returns reduce_histogram bcast_acceptability /\
  continueAlgorithm_returns bcast_acceptability gather_grouping_criteria /\
  continueAlgorithm_returns gather_grouping_criteria bcast_child_groups /\
  continueAlgorithm_returns bcast_child_groups run_children /\
  continueAlgorithm_returns run_children bcast_to_dropouts /\
  continueAlgorithm_returns bcast_to_dropouts completed /\
  continueAlgorithm_returns to_be_launched completed.
Proof.
  repeat split; try (apply returns_after_step; cbn; tauto);
    try (apply returns_waiting; reflexivity).
  apply returns_after_more with reduce_histogram; [cbn; tauto |].
  apply returns_after_step; cbn; tauto.
Qed.

(** C6 (as the code has it): [WaitPhase] has ten values, the eight of the
    specification's sequence plus [for_data_only] before and [deallocated]
    after; the eight are numbered consecutively in the order of the
    sequence; and once a node is in one of the eight, any number of
    successive [continueAlgorithm()] calls leaves it in one of the eight,
    never earlier in the sequence than before. *)
Theorem wait_phase_moves_forward (G : Type) (n n' : Node G) :
  In (d_wait_phase n) running_phases ->
  successive_calls n n' ->
  In (d_wait_phase n') running_phases /\
  WaitPhase_value (d_wait_phase n) <= WaitPhase_value (d_wait_phase n') /\
  map WaitPhase_value running_phases = [1; 2; 3; 4; 5; 6; 7; 8] /\
  (forall p : WaitPhase, In p all_WaitPhase) /\
  length all_WaitPhase = 10%nat.
Proof.
  intros Hin Hcalls.
  destruct (successive_calls_forward n n' Hcalls Hin) as (Hin' & Hle & _).
  split; [exact Hin' | split; [exact Hle | split; [reflexivity | split]]].
  - intros p. destruct p; cbn; tauto.
  - reflexivity.
Qed.

Lemma wait_phase_moves_forward_witness :
  In (d_wait_phase launched_root) running_phases /\
  successive_calls launched_root waiting_root /\
  WaitPhase_value (d_wait_phase launched_root)
  <= WaitPhase_value (d_wait_phase waiting_root).
Proof.
  assert (Hin : In (d_wait_phase launched_root) running_phases)
    by (cbn; tauto).
  assert (Hcalls : successive_calls launched_root waiting_root).
  { apply calls_more with waiting_root; [| apply calls_none].
    split; [apply returns_after_step; cbn; tauto | cbn; repeat split]. }
  split; [exact Hin | split; [exact Hcalls |]].
  apply (wait_phase_moves_forward unit launched_root waiting_root Hin Hcalls).
Defined.

(** C6 (as the claim words it, refuted): a child node that has just been
    constructed is in [for_data_only], which is none of the eight phases. *)
Lemma wait_phase_outside_the_eight :
  d_wait_phase (newChild launched_root 0) = for_data_only /\
  ~ In (d_wait_phase (newChild launched_root 0)) running_phases /\
  ~ (forall n : Node unit, In (d_wait_phase n) running_phases).
Proof.
  assert (Hout : ~ In (d_wait_phase (newChild launched_root 0)) running_phases).
  { cbn. intros H.
    repeat (destruct H as [H | H]; [discriminate H |]). exact H. }
  split; [reflexivity | split; [exact Hout |]].
  intros Hall. exact (Hout (Hall (newChild launched_root 0))).
Qed.

(** ** Size and layout of the gathered grouping criteria *)

Lemma gatherToOwner_length (msgs : list (list Z)) (k : nat) :
  Forall (fun m => length m = k) msgs ->
  length (gatherToOwner msgs) = (k * length msgs)%nat.
Proof.
  unfold gatherToOwner.
  induction 1 as [| m msgs Hm _ IH]; cbn; [lia |].
  rewrite length_app, IH, Hm. lia.
Qed.

Lemma gatheredGroupingCriteria_length group local :
  length (gatheredGroupingCriteria group local) = (4 * length group)%nat.
Proof.
  unfold gatheredGroupingCriteria.
  rewrite (gatherToOwner_length _ 4).
  - rewrite length_map. reflexivity.
  - apply Forall_forall. intros m Hm.
    apply in_map_iff in Hm. destruct Hm as (r & <- & _). reflexivity.
Qed.

Lemma unpack_gathered group local :
  forall i r,
    nth_error group i = Some r ->
    unpackGroupingCriteria (gatheredGroupingCriteria group local) i
    = Some (mkGroupingCriteria (overlap_left (local r)) (overlap_right (local r))
                               r (node_count (local r))).
Proof.
  unfold unpackGroupingCriteria, gatheredGroupingCriteria, gatherToOwner.
  induction group as [| r0 group IH]; intros i r Hi.
  - destruct i; discriminate Hi.
  - destruct i as [| i].
    + cbn in Hi. injection Hi as ->. reflexivity.
    + cbn in Hi. specialize (IH i r Hi).
      replace (4 * S i)%nat with (4 + 4 * i)%nat by lia.
      cbn [map concat packGroupingCriteria app].
      cbn [Nat.add skipn]. exact IH.
Qed.

(** C7: when the gather of the grouping criteria has completed, the owner's
    receive buffer holds exactly four integers per rank of the group,
    [overlap_left, overlap_right, rank, node_count], in group order; its
    size is four times the size of the group, which is what
    [formChildGroups()] requires. *)
Theorem grouping_criteria_four_per_rank
  (G : Type) (n : Node G) (local : Z -> GroupingCriteria) :
  let n' := gatherGroupingCriteria_done n local in
  d_group n' = d_group n /\
  length (d_recv_msg n') = (4 * length (d_group n'))%nat /\
  (forall c : GroupingCriteria, length (packGroupingCriteria c) = 4%nat) /\
  (forall (i : nat) (r : Z),
      nth_error (d_group n') i = Some r ->
      unpackGroupingCriteria (d_recv_msg n') i
      = Some (mkGroupingCriteria (overlap_left (local r)) (overlap_right (local r))
                                 r (node_count (local r)))).
Proof.
  cbv zeta. unfold gatherGroupingCriteria_done, set_recv_msg. cbn.
  split; [reflexivity | split; [| split]].
  - apply gatheredGroupingCriteria_length.
  - reflexivity.
  - apply unpack_gathered.
Qed.

Example grouping_criteria_three_ranks :
  gatheredGroupingCriteria [4; 0; 7]
    (fun r => mkGroupingCriteria (r * 10) (r + 1) 0 (r * r))
  = [40; 5; 4; 16;  0; 1; 0; 0;  70; 8; 7; 49].
Proof. reflexivity. Qed.

(* ===================================================================== *)
(** * Part III: further properties of the inline members *)
(* ===================================================================== *)

(** ** Counters of nodes waiting on communication *)

Lemma fold_max_swap (l : list Z) (a b : Z) :
  Z.max a (fold_right Z.max b l) = Z.max b (fold_right Z.max a l).
Proof.
  induction l as [| x l IHl]; cbn; lia.
Qed.

Lemma fold_max_ge_base (l : list Z) (b : Z) : b <= fold_right Z.max b l.
Proof.
  induction l as [| x l IHl]; cbn; lia.
Qed.

Lemma last_cons_default (x : Z) (l : list Z) (d d' : Z) :
  last (x :: l) d = last (x :: l) d'.
Proof.
  revert x. induction l as [| y l IHl]; intros x; [reflexivity |].
  change (last (y :: l) d = last (y :: l) d'). apply IHl.
Qed.

Lemma commWaitTrace_head (calls : list CommWaitCall) (num : Z) :
  commWaitTrace calls num = num :: tl (commWaitTrace calls num).
Proof.
  destruct calls as [| [] rest]; reflexivity.
Qed.

Lemma commWaitPeak_cons (call : CommWaitCall) (rest : list CommWaitCall) (num : Z) :
  commWaitPeak (call :: rest) num
  = Z.max num (commWaitPeak rest (match call with
                                  | IncWait => num + 1
                                  | DecWait => num - 1
                                  end)).
Proof.
  unfold commWaitPeak.
  set (next := match call with IncWait => num + 1 | DecWait => num - 1 end).
  assert (Htrace : commWaitTrace (call :: rest) num = num :: commWaitTrace rest next)
    by (destruct call; reflexivity).
  rewrite Htrace. rewrite (commWaitTrace_head rest next).
  cbn [fold_right].
  pose proof (fold_max_swap (tl (commWaitTrace rest next)) next num) as Hswap.
  pose proof (fold_max_ge_base (tl (commWaitTrace rest next)) next).
  pose proof (fold_max_ge_base (tl (commWaitTrace rest next)) num).
  lia.
Qed.

Lemma commWaitPeak_ge_start (calls : list CommWaitCall) (num : Z) :
  num <= commWaitPeak calls num.
Proof.
  destruct calls as [| call rest].
  - unfold commWaitPeak. cbn. lia.
  - rewrite commWaitPeak_cons. lia.
Qed.

(** X1: along any history of [incNumNodesCommWait] and
    [decNumNodesCommWait] calls that stays inside the [int] range, the
    maximum never falls below the count, and it never decreases, also not
    when the count is decremented. *)
Theorem commwait_max_bounds_count
  (Max : Z -> Z -> Z) (calls : list CommWaitCall) (c c' : CommWaitCounters) :
  (forall a b : Z, Max a b = Z.max a b) ->
  d_num_nodes_commwait c <= d_max_nodes_commwait c ->
  commWaitCalls Max calls c = Some c' ->
  d_num_nodes_commwait c' <= d_max_nodes_commwait c' /\
  d_max_nodes_commwait c <= d_max_nodes_commwait c'.
Proof.
  intros HMax. revert c. induction calls as [| call rest IH]; intros c Hinv Hrun.
  - cbn in Hrun. injection Hrun as <-. lia.
  - cbn [commWaitCalls] in Hrun.
    destruct (commWaitCall Max call c) as [c1 |] eqn:Hcall; [| discriminate Hrun].
    assert (Hstep : d_num_nodes_commwait c1 <= d_max_nodes_commwait c1 /\
                    d_max_nodes_commwait c <= d_max_nodes_commwait c1).
    { destruct call; cbn in Hcall.
      - unfold incNumNodesCommWait in Hcall.
        destruct (d_num_nodes_commwait c <? CInt.INT_MAX); [| discriminate Hcall].
        injection Hcall as <-. cbn. rewrite HMax. lia.
      - unfold decNumNodesCommWait in Hcall.
        destruct (INT_MIN <? d_num_nodes_commwait c); [| discriminate Hcall].
        injection Hcall as <-. cbn. lia. }
    destruct Hstep as [Hinv1 Hmono1].
    destruct (IH c1 Hinv1 Hrun) as [Hinv' Hmono']. lia.
Qed.

Lemma commwait_max_bounds_count_witness :
  commWaitCalls Z.max [IncWait; IncWait; DecWait] (mkCommWaitCounters 1 4)
  = Some (mkCommWaitCounters 2 4) /\
  2 <= 4 /\ 4 <= 4.
Proof.
  split; [reflexivity |].
  apply (commwait_max_bounds_count Z.max [IncWait; IncWait; DecWait]
           (mkCommWaitCounters 1 4) (mkCommWaitCounters 2 4));
    [reflexivity | cbn; lia | reflexivity].
Defined.

(** X2: [d_max_nodes_commwait] is a high-water mark.  When every value the
    count takes along a history fits an [int], all the calls are defined,
    the count ends at the last value of its trace, and the maximum ends at
    the larger of its old value and the highest value the count took. *)
Theorem commwait_max_is_high_water
  (Max : Z -> Z -> Z) (calls : list CommWaitCall) (c : CommWaitCounters) :
  (forall a b : Z, Max a b = Z.max a b) ->
  d_num_nodes_commwait c <= d_max_nodes_commwait c ->
  Forall (fun v => INT_MIN <= v <= CInt.INT_MAX)
         (commWaitTrace calls (d_num_nodes_commwait c)) ->
  exists c' : CommWaitCounters,
    commWaitCalls Max calls c = Some c' /\
    d_num_nodes_commwait c'
    = last (commWaitTrace calls (d_num_nodes_commwait c)) (d_num_nodes_commwait c) /\
    d_max_nodes_commwait c'
    = Z.max (d_max_nodes_commwait c) (commWaitPeak calls (d_num_nodes_commwait c)).
Proof.
  intros HMax. revert c. induction calls as [| call rest IH]; intros c Hinv Hrange.
  - exists c. split; [reflexivity | split; [reflexivity |]].
    unfold commWaitPeak. cbn. lia.
  - rewrite commWaitPeak_cons.
    destruct call.
    + cbn [commWaitTrace] in Hrange |- *.
      inversion Hrange as [| v l Hv Hrest]; subst.
      assert (Hnext : INT_MIN <= d_num_nodes_commwait c + 1 <= CInt.INT_MAX).
      { rewrite (commWaitTrace_head rest (d_num_nodes_commwait c + 1)) in Hrest.
        inversion Hrest; assumption. }
      cbn [commWaitCalls commWaitCall]. unfold incNumNodesCommWait.
      destruct (Z.ltb_spec (d_num_nodes_commwait c) CInt.INT_MAX) as [_ | Hbad];
        [| lia].
      cbv zeta. rewrite HMax.
      set (c1 := mkCommWaitCounters (d_num_nodes_commwait c + 1)
                   (Z.max (d_num_nodes_commwait c + 1) (d_max_nodes_commwait c))).
      destruct (IH c1) as (c' & Hrun & Hnum & Hmax).
      * subst c1. cbn. lia.
      * subst c1. cbn. exact Hrest.
      * exists c'. split; [exact Hrun |]. subst c1. cbn in Hnum, Hmax.
        pose proof (commWaitPeak_ge_start rest (d_num_nodes_commwait c + 1)).
        split; [| lia].
        rewrite Hnum.
        rewrite (commWaitTrace_head rest (d_num_nodes_commwait c + 1)).
        rewrite (last_cons_default _ _ _ (d_num_nodes_commwait c)).
        reflexivity.
    + cbn [commWaitTrace] in Hrange |- *.
      inversion Hrange as [| v l Hv Hrest]; subst.
      assert (Hnext : INT_MIN <= d_num_nodes_commwait c - 1 <= CInt.INT_MAX).
      { rewrite (commWaitTrace_head rest (d_num_nodes_commwait c - 1)) in Hrest.
        inversion Hrest; assumption. }
      cbn [commWaitCalls commWaitCall]. unfold decNumNodesCommWait.
      destruct (Z.ltb_spec INT_MIN (d_num_nodes_commwait c)) as [_ | Hbad];
        [| lia].
      set (c1 := mkCommWaitCounters (d_num_nodes_commwait c - 1)
                   (d_max_nodes_commwait c)).
      destruct (IH c1) as (c' & Hrun & Hnum & Hmax).
      * subst c1. cbn. lia.
      * subst c1. cbn. exact Hrest.
      * exists c'. split; [exact Hrun |]. subst c1. cbn in Hnum, Hmax.
        pose proof (commWaitPeak_ge_start rest (d_num_nodes_commwait c - 1)).
        split; [| lia].
        rewrite Hnum.
        rewrite (commWaitTrace_head rest (d_num_nodes_commwait c - 1)).
        rewrite (last_cons_default _ _ _ (d_num_nodes_commwait c)).
        reflexivity.
Qed.

Lemma commwait_max_is_high_water_witness :
  exists c' : CommWaitCounters,
    commWaitCalls Z.max [IncWait; IncWait; DecWait; IncWait; IncWait]
                  (mkCommWaitCounters 0 0)
    = Some c' /\
    d_num_nodes_commwait c' = 3 /\
    d_max_nodes_commwait c' = 3.
Proof.
  destruct (commwait_max_is_high_water Z.max
              [IncWait; IncWait; DecWait; IncWait; IncWait]
              (mkCommWaitCounters 0 0)) as (c' & Hrun & Hnum & Hmax).
  - reflexivity.
  - cbn. lia.
  - cbn. unfold INT_MIN, CInt.INT_MAX. repeat constructor; lia.
  - exists c'. split; [exact Hrun | split; [exact Hnum | exact Hmax]].
Defined.

(** ** findOwnerInGroup *)

Lemma findOwnerInGroup_from_absent (owner : Z) (group : list Z) :
  forall i : Z, ~ In owner group -> findOwnerInGroup_from i owner group = -1.
Proof.
  induction group as [| r rest IH]; intros i Hnot; [reflexivity |].
  cbn [findOwnerInGroup_from].
  destruct (Z.eqb_spec r owner) as [-> | Hne].
  - exfalso. apply Hnot. left. reflexivity.
  - apply IH. intros Hin. apply Hnot. right. exact Hin.
Qed.

Lemma findOwnerInGroup_from_present (owner : Z) (group : list Z) :
  forall i : Z,
    0 <= i ->
    i + Z.of_nat (length group) <= CInt.INT_MAX + 1 ->
    In owner group ->
    exists k : nat,
      findOwnerInGroup_from i owner group = i + Z.of_nat k /\
      nth_error group k = Some owner /\
      (forall j : nat, (j < k)%nat -> nth_error group j <> Some owner).
Proof.
  induction group as [| r rest IH]; intros i Hi Hfit Hin; [contradiction |].
  cbn [findOwnerInGroup_from].
  cbn [length] in Hfit. rewrite Nat2Z.inj_succ in Hfit.
  destruct (Z.eqb_spec r owner) as [-> | Hne].
  - exists 0%nat. split; [| split].
    + unfold int_of_unsigned.
      destruct (Z.leb_spec i CInt.INT_MAX); [lia | lia].
    + reflexivity.
    + intros j Hj. lia.
  - destruct Hin as [Heq | Hin]; [contradiction |].
    destruct (IH (i + 1) ltac:(lia) ltac:(lia) Hin) as (k & Hres & Hnth & Hfirst).
    exists (S k). split; [| split].
    + rewrite Hres. rewrite Nat2Z.inj_succ. lia.
    + exact Hnth.
    + intros j Hj. destruct j as [| j]; cbn.
      * intros Heq. injection Heq as Heq. contradiction.
      * apply Hfirst. lia.
Qed.

(** X3: for a group whose size fits an [int], [findOwnerInGroup] returns -1
    exactly when the owner is not a member of the group. *)
Theorem findOwnerInGroup_minus_one_iff_absent (owner : Z) (group : list Z) :
  Z.of_nat (length group) <= CInt.INT_MAX ->
  (findOwnerInGroup owner group = -1 <-> ~ In owner group).
Proof.
  intros Hsize. unfold findOwnerInGroup. split.
  - intros Hres Hin.
    destruct (findOwnerInGroup_from_present owner group 0
                ltac:(lia) ltac:(lia) Hin) as (k & Hk & _).
    lia.
  - apply findOwnerInGroup_from_absent.
Qed.

Lemma findOwnerInGroup_minus_one_iff_absent_witness :
  Z.of_nat (length [3; 5; 8]) <= CInt.INT_MAX /\
  (findOwnerInGroup 4 [3; 5; 8] = -1 <-> ~ In 4 [3; 5; 8]).
Proof.
  assert (Hsize : Z.of_nat (length [3; 5; 8]) <= CInt.INT_MAX)
    by (unfold CInt.INT_MAX; cbn; lia).
  split; [exact Hsize |].
  apply (findOwnerInGroup_minus_one_iff_absent 4 [3; 5; 8] Hsize).
Defined.

(** X4: when the owner is a member of a group whose size fits an [int],
    [findOwnerInGroup] returns a valid index of the group, the element at
    that index is the owner, and no earlier element is: it is the first
    occurrence. *)
Theorem findOwnerInGroup_first_occurrence (owner : Z) (group : list Z) :
  Z.of_nat (length group) <= CInt.INT_MAX ->
  In owner group ->
  exists k : nat,
    findOwnerInGroup owner group = Z.of_nat k /\
    (k < length group)%nat /\
    nth_error group k = Some owner /\
    (forall j : nat, (j < k)%nat -> nth_error group j <> Some owner).
Proof.
  intros Hsize Hin. unfold findOwnerInGroup.
  destruct (findOwnerInGroup_from_present owner group 0
              ltac:(lia) ltac:(lia) Hin) as (k & Hres & Hnth & Hfirst).
  exists k. split; [rewrite Hres; lia | split; [| split]].
  - apply nth_error_Some. rewrite Hnth. discriminate.
  - exact Hnth.
  - exact Hfirst.
Qed.

Lemma findOwnerInGroup_first_occurrence_witness :
  exists k : nat,
    findOwnerInGroup 5 [3; 5; 8; 5] = Z.of_nat k /\
    (k < length [3; 5; 8; 5])%nat /\
    nth_error [3; 5; 8; 5] k = Some 5 /\
    (forall j : nat, (j < k)%nat -> nth_error [3; 5; 8; 5] j <> Some 5).
Proof.
  apply (findOwnerInGroup_first_occurrence 5 [3; 5; 8; 5]).
  - unfold CInt.INT_MAX. cbn. lia.
  - cbn. tauto.
Defined.

Example findOwnerInGroup_samples :
  map (fun owner => findOwnerInGroup owner [3; 5; 8; 5]) [3; 5; 8; 4; -1]
  = [0; 1; 2; -1; -1].
Proof. reflexivity. Qed.

(** ** inGroup *)

Lemma inGroup_scan_In (rank : Z) (group : list Z) :
  inGroup_scan rank group = true <-> In rank group.
Proof.
  induction group as [| r rest IH]; cbn.
  - split; [discriminate | contradiction].
  - destruct (Z.eqb_spec rank r) as [-> | Hne].
    + split; [intros _; left; reflexivity | reflexivity].
    + rewrite IH. split; [intros H; right; exact H |].
      intros [Heq | Hin]; [congruence | exact Hin].
Qed.

(** X5: [inGroup(group, rank)] with a non-negative rank tells whether that
    rank is in the group; with a negative rank (the default is -1) it tells
    whether the local rank is, so a negative rank is never looked up. *)
Theorem inGroup_membership (local_rank : Z) (group : list Z) (rank : Z) :
  (0 <= rank -> (inGroup local_rank group rank = true <-> In rank group)) /\
  (rank < 0 -> (inGroup local_rank group rank = true <-> In local_rank group)) /\
  (rank < 0 -> 0 <= local_rank ->
   inGroup local_rank group rank = inGroup local_rank group local_rank).
Proof.
  unfold inGroup. cbv zeta. split; [| split].
  - intros Hr. destruct (Z.ltb_spec rank 0); [lia |]. apply inGroup_scan_In.
  - intros Hr. destruct (Z.ltb_spec rank 0); [| lia]. apply inGroup_scan_In.
  - intros Hr Hl.
    destruct (Z.ltb_spec rank 0); [| lia].
    destruct (Z.ltb_spec local_rank 0); [lia | reflexivity].
Qed.

(** X6: for a non-negative rank and a group whose size fits an [int],
    [inGroup] and [findOwnerInGroup] agree: the rank is reported in the
    group exactly when its index is found (is not negative). *)
Theorem inGroup_iff_findOwnerInGroup (local_rank : Z) (group : list Z) (rank : Z) :
  0 <= rank ->
  Z.of_nat (length group) <= CInt.INT_MAX ->
  (inGroup local_rank group rank = true <-> 0 <= findOwnerInGroup rank group).
Proof.
  intros Hr Hsize.
  destruct (inGroup_membership local_rank group rank) as (Hmem & _).
  rewrite (Hmem Hr). split.
  - intros Hin.
    destruct (findOwnerInGroup_from_present rank group 0
                ltac:(lia) ltac:(lia) Hin) as (k & Hk & _).
    unfold findOwnerInGroup. lia.
  - intros Hfound.
    destruct (in_dec Z.eq_dec rank group) as [Hin | Hnot]; [exact Hin |].
    unfold findOwnerInGroup in Hfound.
    rewrite (findOwnerInGroup_from_absent rank group 0 Hnot) in Hfound. lia.
Qed.

Lemma inGroup_iff_findOwnerInGroup_witness :
  inGroup 0 [3; 5; 8] 8 = true <-> 0 <= findOwnerInGroup 8 [3; 5; 8].
Proof.
  apply (inGroup_iff_findOwnerInGroup 0 [3; 5; 8] 8).
  - lia.
  - unfold CInt.INT_MAX. cbn. lia.
Defined.

(** ** inRelaunchQueue *)

Lemma std_find_le_length (value : Z) (l : list Z) :
  (std_find value l <= length l)%nat.
Proof.
  induction l as [| x rest IH]; cbn; [lia |].
  destruct (x =? value); lia.
Qed.

Lemma std_find_end_iff (value : Z) (l : list Z) :
  std_find value l = length l <-> ~ In value l.
Proof.
  induction l as [| x rest IH]; cbn.
  - tauto.
  - destruct (Z.eqb_spec x value) as [-> | Hne].
    + split; [discriminate | intros H; exfalso; apply H; left; reflexivity].
    + split.
      * intros Heq [Hx | Hin]; [contradiction |].
        apply IH; [lia | exact Hin].
      * intros Hnot. f_equal. apply IH. intros Hin. apply Hnot. right. exact Hin.
Qed.

Lemma std_find_first (value : Z) (l : list Z) :
  In value l ->
  nth_error l (std_find value l) = Some value /\
  (forall j : nat, (j < std_find value l)%nat -> nth_error l j <> Some value).
Proof.
  induction l as [| x rest IH]; cbn; [contradiction |].
  intros Hin. destruct (Z.eqb_spec x value) as [-> | Hne].
  - split; [reflexivity | intros j Hj; lia].
  - destruct Hin as [Hx | Hin]; [contradiction |].
    destruct (IH Hin) as [Hnth Hfirst]. split; [exact Hnth |].
    intros j Hj. destruct j as [| j]; cbn.
    + intros Heq. injection Heq as Heq. contradiction.
    + apply Hfirst. lia.
Qed.

(** X7: [inRelaunchQueue(node_ptr)] returns [end()] exactly when the node
    is not in the relaunch queue (the precondition of
    [continueAlgorithm()]); otherwise it returns the position of the
    node's first entry in the queue. *)
Theorem inRelaunchQueue_end_iff_not_queued (queue : list Z) (node_ptr : Z) :
  (inRelaunchQueue queue node_ptr <= length queue)%nat /\
  (inRelaunchQueue queue node_ptr = length queue <-> ~ In node_ptr queue) /\
  (In node_ptr queue ->
   nth_error queue (inRelaunchQueue queue node_ptr) = Some node_ptr /\
   (forall j : nat, (j < inRelaunchQueue queue node_ptr)%nat ->
                    nth_error queue j <> Some node_ptr)).
Proof.
  unfold inRelaunchQueue. split; [| split].
  - apply std_find_le_length.
  - apply std_find_end_iff.
  - apply std_find_first.
Qed.

(** ** getHistogramBufferSize *)






Example getHistogramBufferSize_sample :
  getHistogramBufferSize (fun d => 4 + d) 3 = 15.
Proof. reflexivity. Qed.

(** ** More on the communication tree degree *)

Lemma tree_degree_below_eight (n : Z) :
  n < 8 -> computeCommunicationTreeDegree n = 2.
Proof.
  intros Hn. unfold computeCommunicationTreeDegree, CInt.shr. cbv zeta.
  rewrite Z.shiftr_div_pow2 by lia. change (2 ^ 3) with 8.
  apply tree_degree_loop_stop.
  assert (n / 8 < 1) by (apply Z.div_lt_upper_bound; lia). lia.
Qed.

Lemma tree_degree_at_least_two (n : Z) :
  2 <= computeCommunicationTreeDegree n.
Proof.
  destruct (Z_lt_dec n 8) as [Hlt | Hge].
  - rewrite tree_degree_below_eight by exact Hlt. lia.
  - rewrite tree_degree_closed_form by lia.
    pose proof (Z.log2_nonneg n).
    assert (0 <= Z.log2 n / 3) by (apply Z.div_pos; lia). lia.
Qed.

(** X10: the tree degree never decreases when the group grows, it is never
    below 2, and every size below 8, zero and negative sizes included,
    gets degree 2. *)
Theorem tree_degree_monotone (n m : Z) :
  n <= m ->
  computeCommunicationTreeDegree n <= computeCommunicationTreeDegree m /\
  2 <= computeCommunicationTreeDegree n /\
  (m < 8 -> computeCommunicationTreeDegree n = 2).
Proof.
  intros Hnm. split; [| split].
  - destruct (Z_lt_dec n 8) as [Hlt | Hge].
    + rewrite (tree_degree_below_eight n Hlt). apply tree_degree_at_least_two.
    + rewrite !tree_degree_closed_form by lia.
      assert (Z.log2 n <= Z.log2 m) by (apply Z.log2_le_mono; lia).
      assert (Z.log2 n / 3 <= Z.log2 m / 3) by (apply Z.div_le_mono; lia).
      lia.
  - apply tree_degree_at_least_two.
  - intros Hm. apply tree_degree_below_eight. lia.
Qed.

Lemma tree_degree_monotone_witness :
  computeCommunicationTreeDegree 60 <= computeCommunicationTreeDegree 70 /\
  2 <= computeCommunicationTreeDegree 60 /\
  (70 < 8 -> computeCommunicationTreeDegree 60 = 2).
Proof.
  apply (tree_degree_monotone 60 70). lia.
Defined.

(** ** More on the acceptance state *)

(** X11: one of [boxAccepted()], [boxRejected()], [boxHasNoTag()] holds
    exactly for the values from -1 upwards; among the enumerators,
    [undetermined] is the only one for which none holds (it is even, like
    the rejected values, yet it does not count as rejected). *)
Theorem box_acceptance_decided_iff :
  (forall v : Z,
      boxAccepted_int v || boxRejected_int v || boxHasNoTag_int v = true
      <-> -1 <= v) /\
  (forall a : BoxAcceptance,
      let v := BoxAcceptance_value a in
      boxAccepted_int v || boxRejected_int v || boxHasNoTag_int v = false
      <-> a = undetermined) /\
  Z.even (BoxAcceptance_value undetermined) = true.
Proof.
  split; [| split].
  - intros v. unfold boxAccepted_int, boxRejected_int, boxHasNoTag_int, CInt.to_bool.
    destruct (Z.leb_spec 0 v) as [Hv | Hv].
    + rewrite (rem2_nonneg v Hv).
      destruct (Z.odd v); cbn; split; intros; try reflexivity; lia.
    + cbn. rewrite Z.eqb_eq. lia.
  - intros a. cbv zeta.
    destruct a; cbn; split; intros H; try reflexivity; discriminate H.
  - reflexivity.
Qed.

(** ** More on gatherGroupingCriteria_check *)



(** X13: [gatherGroupingCriteria_check()] fails (dereferences a null
    [d_comm_group]) exactly when the group does not have size 1 and the
    node has no communication group; an empty group is not treated like a
    single rank. *)
Theorem gatherGroupingCriteria_check_fails_iff
  (G : Type) (ops : AsyncCommGroup G) (n : Node G) :
  (gatherGroupingCriteria_check n = None
   <-> (length (d_group n) <> 1%nat /\ d_comm_group n = None)) /\
  (d_group n = [] -> d_comm_group n = None ->
   gatherGroupingCriteria_check n = None).
Proof.
  assert (Hiff : gatherGroupingCriteria_check n = None
                 <-> (length (d_group n) <> 1%nat /\ d_comm_group n = None)).
  { unfold gatherGroupingCriteria_check.
    destruct (Nat.eqb_spec (length (d_group n)) 1) as [Heq | Hne].
    - split; [discriminate | intros [Hbad _]; contradiction].
    - destruct (d_comm_group n) as [g |].
      + split; [discriminate | intros [_ Hbad]; discriminate Hbad].
      + split; [intros _; split; [exact Hne | reflexivity] | reflexivity]. }
  split; [exact Hiff |].
  intros Hempty Hnull. apply Hiff. rewrite Hempty. split; [discriminate | exact Hnull].
Qed.
